(** * Timeline hover tracking and replay controls of the Sentry front end

    A shallow embedding of
    - [useTimelineMouseTracking] (the scale-aware hover-time computation of
      the zoomed replay timeline), and
    - the rewind / next-breadcrumb buttons of [ReplayPlayPauseBar] and the
      compact-layout switch of [ReplayController]
      (static/app/components/replays/replayController.tsx),
    - the monitor gate, the event tick and its label of [CronTimelineSection]
      (static/app/components/events/interfaces/crons/cronTimelineSection.tsx),
    together with the properties the specification states about them and
    further properties read off the code.

    JavaScript numbers are read twice.  The algebra of the formulas is
    studied in exact arithmetic, over the rationals ([Q]): there rounding,
    [NaN] and the infinities are not modelled, and every statement that
    divides keeps its denominator away from zero.  Where rounding decides,
    the same code is embedded over binary64 floating-point numbers, the
    numbers JavaScript computes with (the modules named [...Doubles]).
    Millisecond offsets of the playback clock are integers ([Z]). *)

From Stdlib Require Import String.
From Stdlib Require PrimFloat.
From Stdlib Require Import QArith Qabs Qminmax Lqa ZArith List Lia Bool Sorted.
Import ListNotations.

(** ** Outcomes of a call

    The error taxonomy of the specification (section 7) and the two ways a
    call can complete: normally with a value, or by raising. *)

Inductive error : Type :=
| InvalidGeometry
| InvalidZoom
| InvalidSpeed
| OutOfRange.

Inductive completion (A : Type) : Type :=
| Normal (a : A)
| Throw (e : error).

Arguments Normal {A} a.
Arguments Throw {A} e.

(** ** Comparisons of JavaScript numbers, as booleans *)

Definition Qltb (x y : Q) : bool := negb (Qle_bool y x).
Definition Qgeb (x y : Q) : bool := Qle_bool y x.

(** ** useTimelineMouseTracking *)

Module TimelineMouseTracking.

(** The position reported by [useMouseTracking]: the pointer's offset from
    the left edge of the tracked element, and the element's width. *)
Record Params : Type := { left : Q; width : Q }.

Section Hook.

(** [divide] is imported by the hook from [sentry/utils/number/divide] and
    defined outside this file's scope: it is taken as a parameter.  The facts
    proved below assume of it only the specification's reading
    ([percentComplete = currentTimeMs / durationMs]), and only where the
    denominator is not zero. *)
Variable divide : Q -> Q -> Q.

(** The values the hook closes over: the zoom level and the playhead. *)
Variable scale : Q.
Variable currentTime : Q.

Definition initialTranslate : Q := 0.5 / scale.

Definition percentComplete (durationMs : Q) : Q := divide currentTime durationMs.

Definition starting (durationMs : Q) : bool :=
  Qltb (percentComplete durationMs) initialTranslate.

Definition ending (durationMs : Q) : bool :=
  Qltb 1 (percentComplete durationMs + initialTranslate).

(** The inner closure [time] of [handlePositionChange]. *)
Definition time (durationMs : Q) (p : Params) : Q :=
  let percent := left p / width p in
  if starting durationMs then
    (percent * durationMs) / scale
  else if ending durationMs then
    (percent * durationMs) / scale + (1 - 1 / scale) * durationMs
  else
    let percent := (left p - width p / 2) / width p in
    currentTime + (percent * durationMs) / scale.

(** [handlePositionChange]: the result is the argument handed to
    [setCurrentHoverTime] ([None] is [undefined]).  [params] is [None] when
    the tracker reports no position, [durationMs] is [None] while no replay
    is loaded. *)
Definition handlePositionChange (durationMs : option Q) (params : option Params)
  : completion (option Q) :=
  match params, durationMs with
  | None, _ | _, None => Normal None
  | Some p, Some d =>
      if Qgeb (left p) 0 then Normal (Some (time d p))
      else Normal None
  end.

(** Modelled from the spec: [timeToPixel] (scrubber-handle placement) has no
    counterpart in the hook.  The specification defines it as the algebraic
    inverse of the branch of the pixel-to-time formula that is active,
    selected with the same [starting] / [ending] tests. *)
Definition timeToPixel (durationMs widthPx timeMs : Q) : Q :=
  if starting durationMs then
    ((timeMs * scale) / durationMs) * widthPx
  else if ending durationMs then
    (((timeMs - (1 - 1 / scale) * durationMs) * scale) / durationMs) * widthPx
  else
    (((timeMs - currentTime) * scale) / durationMs) * widthPx + widthPx / 2.

(** Half of the visible window, in milliseconds. *)
Definition halfWindow (durationMs : Q) : Q := (0.5 * durationMs) / scale.

(** The time spanned by one pixel of the zoomed timeline. *)
Definition msPerPixel (durationMs widthPx : Q) : Q :=
  durationMs / (widthPx * scale).

End Hook.

End TimelineMouseTracking.

(** ** ReplayPlayPauseBar: the rewind and next-breadcrumb buttons *)

Module ReplayController.

Local Open Scope Z_scope.

Definition SECOND : Z := 1000.

Inductive FrameKind : Type := Breadcrumb | Network | Console | Dom | Canvas.

(** A recorded frame: its offset from the start of the recording, its kind
    and an opaque payload. *)
Record ReplayFrame : Type :=
  { offsetMs : Z; kind : FrameKind; payload : nat }.

(** What the buttons read from the [ReplayReader]. *)
Record ReplayReader : Type :=
  { getDurationMs : Z; getChapterFrames : list ReplayFrame }.

Inductive Phase : Type := Paused | Playing | Ended.

(** The playback state held by the replay context. *)
Record ReplayContext : Type :=
  { durationMs : Z; currentTime : Z; phase : Phase; speed : Q }.

Definition clamp (x lo hi : Z) : Z := Z.min (Z.max x lo) hi.

(** Modelled from the spec: [setCurrentTime] is obtained from
    [useReplayContext], whose code lies outside the controller; it is the
    specification's [seek(ms)], which clamps [ms] to [[0, durationMs]], sets
    the current time and leaves the play/pause state alone. *)
Definition setCurrentTime (ms : Z) (ctx : ReplayContext) : ReplayContext :=
  {| durationMs := durationMs ctx;
     currentTime := clamp ms 0 (durationMs ctx);
     phase := phase ctx;
     speed := speed ctx |}.

(** One step of the linear scan behind [getNextReplayFrame]. *)
Definition pickNext (targetOffsetMs : Z) (found : option ReplayFrame)
  (frame : ReplayFrame) : option ReplayFrame :=
  if offsetMs frame <=? targetOffsetMs then found
  else match found with
       | None => Some frame
       | Some best =>
           if offsetMs frame <? offsetMs best then Some frame else found
       end.

(** Modelled from the spec: [getNextReplayFrame] is imported from
    [sentry/utils/replays/getReplayEvent], whose code lies outside the
    controller.  It is the specification's [findNextFrame]: the
    smallest-offset frame whose offset is strictly greater than the target,
    the earliest in stream order among equals, as found by a scan of the
    whole sequence; as at the call site it receives the frames and the
    target only. *)
Definition getNextReplayFrame (frames : list ReplayFrame) (targetOffsetMs : Z)
  : option ReplayFrame :=
  fold_left (pickNext targetOffsetMs) frames None.

(** What a scan for the next frame after [target] has established once it
    has read the frames [seen]: the frame found lies after the target and
    no frame read lies strictly between; nothing is found only when no
    frame read lies after the target. *)
Definition scanned (target : Z) (seen : list ReplayFrame)
  (found : option ReplayFrame) : Prop :=
  match found with
  | Some f =>
      In f seen /\ target < offsetMs f /\
      forall g, In g seen -> target < offsetMs g -> offsetMs f <= offsetMs g
  | None => forall g, In g seen -> offsetMs g <= target
  end.

(** Modelled from the spec: the Playback Clock's [rewind(deltaMs)], a seek
    to the current time less [deltaMs].  The controller has its instance for
    ten seconds, [onClickRewind] below. *)
Definition rewind (deltaMs : Z) (ctx : ReplayContext) : ReplayContext :=
  setCurrentTime (currentTime ctx - deltaMs) ctx.

(** The [onClick] handler of the "Rewind 10s" button. *)
Definition onClickRewind (ctx : ReplayContext) : ReplayContext :=
  setCurrentTime (currentTime ctx - 10 * SECOND) ctx.

(** The [onClick] handler of the "Next breadcrumb" button
    (the specification's [stepToNextFrame]). *)
Definition onClickNext (replay : option ReplayReader) (ctx : ReplayContext)
  : ReplayContext :=
  match replay with
  | None => ctx
  | Some r =>
      match getNextReplayFrame (getChapterFrames r) (currentTime ctx) with
      | Some next => setCurrentTime (offsetMs next) ctx
      | None => ctx
      end
  end.

(** The context after [n] clicks on "Next breadcrumb". *)
Fixpoint clicks (n : nat) (replay : option ReplayReader) (ctx : ReplayContext)
  : ReplayContext :=
  match n with
  | O => ctx
  | S k => clicks k replay (onClickNext replay ctx)
  end.

(** The positions the playhead takes over [n] successive clicks. *)
Fixpoint visited (n : nat) (replay : option ReplayReader) (ctx : ReplayContext)
  : list Z :=
  match n with
  | O => []
  | S k =>
      let ctx' := onClickNext replay ctx in
      currentTime ctx' :: visited k replay ctx'
  end.

(** Breadcrumb frames at the given offsets. *)
Definition breadcrumbsAt (offsets : list Z) : list ReplayFrame :=
  map (fun o => {| offsetMs := o; kind := Breadcrumb; payload := O |}) offsets.

(** Clicking through a recording visits every frame once, in order, and
    the click after the last one changes nothing. *)
Definition visitsEveryFrameOnce (r : ReplayReader) (ctx : ReplayContext) : Prop :=
  let n := length (getChapterFrames r) in
  visited n (Some r) ctx = map offsetMs (getChapterFrames r) /\
  onClickNext (Some r) (clicks n (Some r) ctx) = clicks n (Some r) ctx.

End ReplayController.

(** ** ReplayController: the compact layout, and runs of clicks *)

Module ReplayControllerBar.

Import ReplayController.

Definition COMPACT_WIDTH_BREAKPOINT : Q := 500.

(** [updateIsCompact]: the value handed to [setIsCompact].  [barWidth] is
    the width of the bar's bounding rectangle, [None] while [barRef.current]
    is null, in which case the breakpoint itself stands in for the width. *)
Definition updateIsCompact (barWidth : option Q) : bool :=
  let width :=
    match barWidth with
    | Some w => w
    | None => COMPACT_WIDTH_BREAKPOINT
    end in
  Qltb width COMPACT_WIDTH_BREAKPOINT.

(** The context after [n] clicks on "Rewind 10s". *)
Fixpoint rewinds (n : nat) (ctx : ReplayContext) : ReplayContext :=
  match n with
  | O => ctx
  | S k => rewinds k (onClickRewind ctx)
  end.

End ReplayControllerBar.

(** ** CronTimelineSection *)

Module CronTimelineSection.

Local Open Scope string_scope.

Definition DEFAULT_ENVIRONMENT : string := "production".

Record EventTag : Type := { key : string; value : string }.

(** [event.tags.find(({key}) => key === k)?.value] *)
Definition tagValue (k : string) (tags : list EventTag) : option string :=
  option_map value (find (fun tag => String.eqb (key tag) k) tags).

Definition monitorId (tags : list EventTag) : option string :=
  tagValue "monitor.id" tags.

Definition environment (tags : list EventTag) : option string :=
  tagValue "environment" tags.

(** The options handed to [useMonitorStats]. *)
Record MonitorStatsOptions : Type :=
  { monitors : list string; enabled : bool }.

Definition monitorStatsOptions (tags : list EventTag) : MonitorStatsOptions :=
  {| monitors := [match monitorId tags with Some id => id | None => EmptyString end];
     enabled := match monitorId tags with Some _ => true | None => false end |}.

(** [!monitorId]: an absent id and the empty string are both falsy. *)
Definition noMonitorId (id : option string) : bool :=
  match id with
  | None => true
  | Some s => String.eqb s EmptyString
  end.

Local Open Scope Q_scope.

(** [msPerPixel] and [eventTickLeft]; times are milliseconds since the
    epoch, [elapsedMinutes] is read from the time-window configuration. *)
Definition msPerPixel (elapsedMinutes timelineWidth : Q) : Q :=
  (elapsedMinutes * 60 * 1000) / timelineWidth.

Definition eventTickLeft (dateReceived start elapsedMinutes timelineWidth : Q) : Q :=
  (dateReceived - start) / msPerPixel elapsedMinutes timelineWidth.

(** The [left] of [EventLineLabel], in pixels:
    [clamp(0px, left, calc(timelineWidth - 50px))].  CSS resolves
    [clamp(MIN, VAL, MAX)] as [max(MIN, min(VAL, MAX))]. *)
Definition eventLineLabelLeft (left timelineWidth : Q) : Q :=
  Qmax 0 (Qmin left (timelineWidth - 50)).

Section Render.

(** One bucket of check-in statistics, as returned by the stats query. *)
Variable Stat : Type.

(** What the section shows below the grid lines. *)
Inductive Body : Type :=
| CheckInPlaceholder
| CheckInTimeline (eventTickLeft : Q) (stats : list Stat) (env : string).

Inductive Rendered : Type :=
| RenderNull
| InterimSection (body : Body).

(** [monitorStats[monitorId] ?? []] *)
Fixpoint statsOf (id : string) (monitorStats : list (string * list Stat))
  : list Stat :=
  match monitorStats with
  | [] => []
  | (k, v) :: rest => if String.eqb k id then v else statsOf id rest
  end.

(** The render result of [CronTimelineSection]: [monitorStats] is [None]
    while the query has no data, [tick] is [eventTickLeft]. *)
Definition render (tags : list EventTag)
  (monitorStats : option (list (string * list Stat))) (isPending : bool)
  (tick : Q) : Rendered :=
  if noMonitorId (monitorId tags) then RenderNull
  else
    match monitorId tags with
    | None => RenderNull
    | Some id =>
        InterimSection
          match monitorStats with
          | Some stats =>
              if negb isPending then
                CheckInTimeline tick (statsOf id stats)
                  match environment tags with
                  | Some env => env
                  | None => DEFAULT_ENVIRONMENT
                  end
              else CheckInPlaceholder
          | None => CheckInPlaceholder
          end
    end.

End Render.

End CronTimelineSection.

(** ** The same arithmetic in double precision *)

(** [useTimelineMouseTracking] over binary64 numbers: every operation
    rounds as JavaScript's does. *)
Module TimelineMouseTrackingDoubles.

Import PrimFloat.
Local Open Scope float_scope.

Record Params : Type := { left : float; width : float }.

Section Hook.

(** [divide], as in [TimelineMouseTracking], is a parameter. *)
Variable divide : float -> float -> float.

Variable scale : float.
Variable currentTime : float.

Definition initialTranslate : float := 0.5 / scale.

Definition percentComplete (durationMs : float) : float :=
  divide currentTime durationMs.

Definition starting (durationMs : float) : bool :=
  percentComplete durationMs <? initialTranslate.

Definition ending (durationMs : float) : bool :=
  1 <? percentComplete durationMs + initialTranslate.

Definition time (durationMs : float) (p : Params) : float :=
  let percent := left p / width p in
  if starting durationMs then
    (percent * durationMs) / scale
  else if ending durationMs then
    (percent * durationMs) / scale + (1 - 1 / scale) * durationMs
  else
    let percent := (left p - width p / 2) / width p in
    currentTime + (percent * durationMs) / scale.

Definition handlePositionChange (durationMs : option float)
  (params : option Params) : completion (option float) :=
  match params, durationMs with
  | None, _ | _, None => Normal None
  | Some p, Some d =>
      if 0 <=? left p then Normal (Some (time d p))
      else Normal None
  end.

End Hook.

End TimelineMouseTrackingDoubles.

(** [msPerPixel] and [eventTickLeft] of [CronTimelineSection] over binary64
    numbers. *)
Module CronTimelineSectionDoubles.

Import PrimFloat.
Local Open Scope float_scope.

Definition msPerPixel (elapsedMinutes timelineWidth : float) : float :=
  (elapsedMinutes * 60 * 1000) / timelineWidth.

Definition eventTickLeft
  (dateReceived start elapsedMinutes timelineWidth : float) : float :=
  (dateReceived - start) / msPerPixel elapsedMinutes timelineWidth.

End CronTimelineSectionDoubles.

(** * Properties *)

(** ** Boolean comparisons against their propositions *)

Lemma Qltb_lt (x y : Q) : Qltb x y = true <-> x < y.
Proof.
  unfold Qltb. rewrite negb_true_iff, <- not_true_iff_false, Qle_bool_iff.
  split; [apply Qnot_le_lt | apply Qlt_not_le].
Qed.

Lemma Qltb_ge (x y : Q) : Qltb x y = false <-> y <= x.
Proof.
  unfold Qltb. rewrite negb_false_iff. apply Qle_bool_iff.
Qed.

Lemma Qgeb_le (x y : Q) : Qgeb x y = true <-> y <= x.
Proof. apply Qle_bool_iff. Qed.

Lemma Qgeb_lt (x y : Q) : Qgeb x y = false <-> x < y.
Proof.
  unfold Qgeb. rewrite <- not_true_iff_false, Qle_bool_iff.
  split; [apply Qnot_le_lt | apply Qlt_not_le].
Qed.

(** ** The hover-time computation *)

Module TimelineMouseTrackingFacts.

Import TimelineMouseTracking.

Section Facts.

Variable divide : Q -> Q -> Q.
Hypothesis divide_quotient : forall n d : Q, ~ d == 0 -> divide n d == n / d.

Lemma pos_nonzero (x : Q) : 0 < x -> ~ x == 0.
Proof. intros H E. rewrite E in H. exact (Qlt_irrefl 0 H). Qed.

Lemma starting_true (scale currentTime durationMs : Q) :
  0 < durationMs ->
  (starting divide scale currentTime durationMs = true
   <-> currentTime / durationMs < 0.5 / scale).
Proof.
  intros Hd. unfold starting, percentComplete, initialTranslate.
  rewrite Qltb_lt.
  rewrite (divide_quotient currentTime durationMs (pos_nonzero durationMs Hd)).
  reflexivity.
Qed.

Lemma ending_true (scale currentTime durationMs : Q) :
  0 < durationMs ->
  (ending divide scale currentTime durationMs = true
   <-> 1 < currentTime / durationMs + 0.5 / scale).
Proof.
  intros Hd. unfold ending, percentComplete, initialTranslate.
  rewrite Qltb_lt.
  rewrite (divide_quotient currentTime durationMs (pos_nonzero durationMs Hd)).
  reflexivity.
Qed.

Lemma starting_false (scale currentTime durationMs : Q) :
  0 < durationMs ->
  (starting divide scale currentTime durationMs = false
   <-> 0.5 / scale <= currentTime / durationMs).
Proof.
  intros Hd. unfold starting, percentComplete, initialTranslate.
  rewrite Qltb_ge.
  rewrite (divide_quotient currentTime durationMs (pos_nonzero durationMs Hd)).
  reflexivity.
Qed.

Lemma ending_false (scale currentTime durationMs : Q) :
  0 < durationMs ->
  (ending divide scale currentTime durationMs = false
   <-> currentTime / durationMs + 0.5 / scale <= 1).
Proof.
  intros Hd. unfold ending, percentComplete, initialTranslate.
  rewrite Qltb_ge.
  rewrite (divide_quotient currentTime durationMs (pos_nonzero durationMs Hd)).
  reflexivity.
Qed.

(** The two tests, with the division by the duration cleared. *)
Lemma percent_vs_time (scale currentTime durationMs : Q) :
  0 < scale -> 0 < durationMs ->
  (currentTime / durationMs < 0.5 / scale
   <-> currentTime < halfWindow scale durationMs) /\
  (1 < currentTime / durationMs + 0.5 / scale
   <-> durationMs < currentTime + halfWindow scale durationMs).
Proof.
  intros Hs Hd. unfold halfWindow.
  assert (Es : ~ scale == 0) by now apply pos_nonzero.
  assert (Ed : ~ durationMs == 0) by now apply pos_nonzero.
  assert (E1 : (currentTime / durationMs) * durationMs == currentTime)
    by (field; assumption).
  assert (E2 : (0.5 / scale) * durationMs == (0.5 * durationMs) / scale)
    by (field; assumption).
  assert (E3 : (currentTime / durationMs + 0.5 / scale) * durationMs
               == currentTime + (0.5 * durationMs) / scale)
    by (field; split; assumption).
  assert (E4 : 1 * durationMs == durationMs) by ring.
  split.
  - rewrite <- (Qmult_lt_r _ _ durationMs Hd), E1, E2. reflexivity.
  - rewrite <- (Qmult_lt_r _ _ durationMs Hd), E3, E4. reflexivity.
Qed.


Lemma branch_cases (scale currentTime durationMs : Q) :
  0 < scale -> 0 < durationMs ->
  (starting divide scale currentTime durationMs = true /\
   currentTime < halfWindow scale durationMs) \/
  (starting divide scale currentTime durationMs = false /\
   ending divide scale currentTime durationMs = true /\
   halfWindow scale durationMs <= currentTime /\
   durationMs < currentTime + halfWindow scale durationMs) \/
  (starting divide scale currentTime durationMs = false /\
   ending divide scale currentTime durationMs = false /\
   halfWindow scale durationMs <= currentTime /\
   currentTime + halfWindow scale durationMs <= durationMs).
Proof.
  intros Hs Hd.
  destruct (percent_vs_time scale currentTime durationMs Hs Hd) as [P1 P2].
  destruct (starting divide scale currentTime durationMs) eqn:S.
  - left. split; [reflexivity|].
    apply P1, (starting_true scale currentTime durationMs Hd), S.
  - right.
    assert (L : halfWindow scale durationMs <= currentTime).
    { apply Qnot_lt_le. intros C.
      apply P1, (starting_true scale currentTime durationMs Hd) in C.
      congruence. }
    destruct (ending divide scale currentTime durationMs) eqn:E.
    + left. repeat split; try assumption.
      apply P2, (ending_true scale currentTime durationMs Hd), E.
    + right. repeat split; try assumption.
      apply Qnot_lt_le. intros C.
      apply P2, (ending_true scale currentTime durationMs Hd) in C.
      congruence.
Qed.

(** Every branch is affine in the pointer position, with the same slope. *)
Lemma time_affine (scale currentTime durationMs left width : Q) :
  ~ scale == 0 -> ~ width == 0 ->
  time divide scale currentTime durationMs {| left := left; width := width |}
  == time divide scale currentTime durationMs {| left := 0; width := width |}
     + left * msPerPixel scale durationMs width.
Proof.
  intros Hs Hw. unfold time, msPerPixel.
  cbn [TimelineMouseTracking.left TimelineMouseTracking.width].
  destruct (starting divide scale currentTime durationMs);
    [|destruct (ending divide scale currentTime durationMs)];
    field; split; assumption.
Qed.

Lemma msPerPixel_pos (scale durationMs width : Q) :
  0 < scale -> 0 < durationMs -> 0 < width ->
  0 < msPerPixel scale durationMs width.
Proof.
  intros Hs Hd Hw. unfold msPerPixel.
  apply Qlt_shift_div_l.
  - apply Qmult_lt_0_compat; assumption.
  - rewrite Qmult_0_l. assumption.
Qed.

(** The time at the left edge of the element, branch by branch. *)
Lemma time_left_edge (scale currentTime durationMs width : Q) :
  ~ scale == 0 -> ~ width == 0 ->
  time divide scale currentTime durationMs {| left := 0; width := width |}
  == if starting divide scale currentTime durationMs then 0
     else if ending divide scale currentTime durationMs
          then durationMs - 2 * halfWindow scale durationMs
          else currentTime - halfWindow scale durationMs.
Proof.
  intros Hs Hw. unfold time, halfWindow. cbn [left TimelineMouseTracking.width].
  destruct (starting divide scale currentTime durationMs);
    [|destruct (ending divide scale currentTime durationMs)];
    field; try split; assumption.
Qed.

(** The whole element spans two half windows. *)
Lemma width_span (scale durationMs width : Q) :
  ~ scale == 0 -> ~ width == 0 ->
  width * msPerPixel scale durationMs width == 2 * halfWindow scale durationMs.
Proof.
  intros Hs Hw. unfold msPerPixel, halfWindow. field. split; assumption.
Qed.

Lemma halfWindow_bounds (scale durationMs : Q) :
  1 <= scale -> 0 < durationMs ->
  0 < halfWindow scale durationMs /\ 2 * halfWindow scale durationMs <= durationMs.
Proof.
  intros Hs Hd. unfold halfWindow.
  assert (Hs0 : 0 < scale) by lra.
  split.
  - apply Qlt_shift_div_l; [assumption|]. lra.
  - assert (E : 2 * (0.5 * durationMs / scale) == durationMs / scale)
      by (field; now apply pos_nonzero).
    rewrite E. apply Qle_shift_div_r; [assumption|].
    setoid_replace durationMs with (durationMs * 1) at 1 by ring.
    apply Qmult_le_l; assumption.
Qed.


(** C1.  For zoom >= 1, width > 0, durationMs > 0, a playhead within the
    recording and any pixel position, the pixel-to-time conversion (the
    closure [time] of [handlePositionChange]) is the three-branch formula of
    the specification, selected by [percentComplete] and [initialTranslate];
    and this is the time the handler publishes for a position at or right of
    the element's left edge. *)
Theorem pixelToTime_three_branches
  (zoom width durationMs currentTimeMs pixelX : Q) :
  1 <= zoom -> 0 < width -> 0 < durationMs ->
  0 <= currentTimeMs <= durationMs ->
  let initialTranslate := 0.5 / zoom in
  let percentComplete := currentTimeMs / durationMs in
  let p := {| left := pixelX; width := width |} in
  let t := time divide zoom currentTimeMs durationMs p in
  (percentComplete < initialTranslate ->
   t == (pixelX / width) * durationMs / zoom) /\
  (~ percentComplete < initialTranslate ->
   1 < percentComplete + initialTranslate ->
   t == (pixelX / width) * durationMs / zoom + (1 - 1 / zoom) * durationMs) /\
  (~ percentComplete < initialTranslate ->
   ~ 1 < percentComplete + initialTranslate ->
   t == currentTimeMs + ((pixelX - width / 2) / width) * durationMs / zoom) /\
  (0 <= pixelX ->
   handlePositionChange divide zoom currentTimeMs (Some durationMs) (Some p)
   = Normal (Some t)).
Proof.
  intros Hz Hw Hd Hc initialTranslate percentComplete p t.
  subst initialTranslate percentComplete t. unfold time.
  repeat split.
  - intros S. apply (starting_true zoom currentTimeMs durationMs Hd) in S.
    rewrite S. reflexivity.
  - intros S E.
    apply Qnot_lt_le, (starting_false zoom currentTimeMs durationMs Hd) in S.
    apply (ending_true zoom currentTimeMs durationMs Hd) in E.
    rewrite S, E. reflexivity.
  - intros S E.
    apply Qnot_lt_le, (starting_false zoom currentTimeMs durationMs Hd) in S.
    apply Qnot_lt_le, (ending_false zoom currentTimeMs durationMs Hd) in E.
    rewrite S, E. reflexivity.
  - intros Hx. unfold handlePositionChange.
    apply Qgeb_le in Hx. subst p. cbn [left]. rewrite Hx. reflexivity.
Qed.



Lemma Qhalf (x : Q) : x / 2 == x * (1 # 2).
Proof. field. Qed.

Lemma halfWindow_one (durationMs : Q) :
  halfWindow 1 durationMs == durationMs * (1 # 2).
Proof. unfold halfWindow. field. Qed.

(** C3, as the code has it.  At zoom 1 the mid branch is taken only when the
    playhead sits exactly at the middle of the recording: before the middle
    the start-pinned branch is taken and after it the end-pinned one.  In
    all three cases the result is the plain linear map
    [(pixelX / width) * durationMs]; and in the scenario of a 60000 ms
    recording with the playhead at 30000 ms, pixel 0 takes the mid branch
    and yields [30000 + ((0 - width/2) / width) * 60000], which is 0. *)
Theorem zoom_one_is_linear (width durationMs currentTimeMs pixelX : Q) :
  0 < width -> 0 < durationMs -> 0 <= currentTimeMs <= durationMs ->
  (starting divide 1 currentTimeMs durationMs = true
   <-> currentTimeMs < durationMs / 2) /\
  (ending divide 1 currentTimeMs durationMs = true
   <-> durationMs / 2 < currentTimeMs) /\
  (starting divide 1 currentTimeMs durationMs = false /\
   ending divide 1 currentTimeMs durationMs = false
   <-> currentTimeMs == durationMs / 2) /\
  time divide 1 currentTimeMs durationMs {| left := pixelX; width := width |}
  == (pixelX / width) * durationMs /\
  starting divide 1 30000 60000 = false /\
  ending divide 1 30000 60000 = false /\
  time divide 1 30000 60000 {| left := 0; width := width |}
  == 30000 + ((0 - width / 2) / width) * 60000 /\
  time divide 1 30000 60000 {| left := 0; width := width |} == 0.
Proof.
  intros Hw Hd Hc.
  assert (H1 : 0 < 1) by lra.
  assert (E1 : ~ 1 == 0) by (apply pos_nonzero; lra).
  assert (Ew : ~ width == 0) by now apply pos_nonzero.
  assert (Branch : forall c d : Q, 0 < d ->
            (starting divide 1 c d = true <-> c < d / 2) /\
            (ending divide 1 c d = true <-> d / 2 < c)).
  { intros c d Hd'. destruct (percent_vs_time 1 c d H1 Hd') as [P1 P2].
    rewrite (starting_true 1 c d Hd'), (ending_true 1 c d Hd'), P1, P2.
    rewrite (halfWindow_one d), (Qhalf d). split; split; intros; lra. }
  assert (Mid : forall c d : Q, 0 < d ->
            (starting divide 1 c d = false /\ ending divide 1 c d = false
             <-> c == d / 2)).
  { intros c d Hd'. destruct (Branch c d Hd') as [B1 B2].
    rewrite <- !not_true_iff_false, B1, B2, (Qhalf d). split.
    - intros [A B]. apply Qle_antisym; apply Qnot_lt_le; assumption.
    - intros E. split; intros C; rewrite E in C; exact (Qlt_irrefl _ C). }
  assert (Lin : forall c d x : Q, 0 < d ->
            time divide 1 c d {| left := x; width := width |} == (x / width) * d).
  { intros c d x Hd'.
    rewrite (time_affine 1 c d x width E1 Ew).
    rewrite (time_left_edge 1 c d width E1 Ew).
    assert (EX : x * msPerPixel 1 d width == (x / width) * d)
      by (unfold msPerPixel; field; assumption).
    pose proof (halfWindow_one d) as EH.
    destruct (branch_cases 1 c d H1 Hd')
      as [[S L] | [[S [E [L1 L2]]] | [S [E [L1 L2]]]]];
      rewrite S; try rewrite E; lra. }
  assert (H6 : 0 < 60000) by lra.
  assert (M6 : (30000 : Q) == 60000 / 2) by field.
  split; [apply Branch, Hd|]. split; [apply Branch, Hd|].
  split; [apply Mid, Hd|]. split; [apply Lin, Hd|].
  split; [apply (Mid 30000 60000 H6), M6|].
  split; [apply (Mid 30000 60000 H6), M6|].
  split; rewrite (Lin 30000 60000 0 H6); field; assumption.
Qed.

(** C4.  With [timeToPixel] the inverse of the active branch, converting a
    time of the recording to a pixel and back gives the time again, hence
    within one pixel's worth of time; and so does any pixel position at most
    one pixel away from the exact one (a rounded handle position). *)
Theorem timeToPixel_round_trip (zoom width durationMs currentTimeMs timeMs : Q) :
  1 <= zoom -> 0 < width -> 0 < durationMs ->
  0 <= currentTimeMs <= durationMs -> 0 <= timeMs <= durationMs ->
  let x := timeToPixel divide zoom currentTimeMs durationMs width timeMs in
  let back := fun px : Q =>
    time divide zoom currentTimeMs durationMs {| left := px; width := width |} in
  back x == timeMs /\
  Qabs (back x - timeMs) <= msPerPixel zoom durationMs width /\
  (forall px : Q, Qabs (px - x) <= 1 ->
     Qabs (back px - timeMs) <= msPerPixel zoom durationMs width).
Proof.
  intros Hz Hw Hd Hc Ht x back.
  assert (Hz0 : 0 < zoom) by lra.
  assert (Ez : ~ zoom == 0) by now apply pos_nonzero.
  assert (Ew : ~ width == 0) by now apply pos_nonzero.
  assert (Ed : ~ durationMs == 0) by now apply pos_nonzero.
  pose proof (msPerPixel_pos zoom durationMs width Hz0 Hd Hw) as Hm.
  assert (Exact : back x == timeMs).
  { subst back x. unfold time, timeToPixel. cbn [left TimelineMouseTracking.width].
    destruct (starting divide zoom currentTimeMs durationMs);
      [|destruct (ending divide zoom currentTimeMs durationMs)];
      field; repeat split; assumption. }
  split; [exact Exact|]. split.
  - rewrite Exact.
    setoid_replace (timeMs - timeMs) with 0 by ring.
    simpl. apply Qlt_le_weak, Hm.
  - intros px Hpx.
    assert (Diff : back px - timeMs == (px - x) * msPerPixel zoom durationMs width).
    { rewrite <- Exact. subst back. cbv beta.
      rewrite (time_affine zoom currentTimeMs durationMs px width Ez Ew).
      rewrite (time_affine zoom currentTimeMs durationMs x width Ez Ew).
      ring. }
    rewrite Diff, Qabs_Qmult.
    rewrite (Qabs_pos (msPerPixel zoom durationMs width)) by (apply Qlt_le_weak, Hm).
    setoid_replace (msPerPixel zoom durationMs width)
      with (1 * msPerPixel zoom durationMs width) at 2 by ring.
    apply Qmult_le_compat_r; [exact Hpx | apply Qlt_le_weak, Hm].
Qed.


(** C7, as the code has it.  The hook does not validate the zoom level: for
    a zoom below 1 no call raises [InvalidZoom], and a position at or right
    of the left edge over a loaded recording completes normally with the
    number the same branch formulas give. *)
Theorem zoom_below_one_not_rejected (zoom currentTimeMs : Q) :
  zoom < 1 ->
  (forall (durationMs : option Q) (params : option Params),
     handlePositionChange divide zoom currentTimeMs durationMs params
     <> Throw InvalidZoom) /\
  (forall (durationMs : Q) (p : Params), 0 <= left p ->
     handlePositionChange divide zoom currentTimeMs (Some durationMs) (Some p)
     = Normal (Some (time divide zoom currentTimeMs durationMs p))).
Proof.
  intros _. split.
  - intros [d|] [p|]; unfold handlePositionChange;
      try destruct (Qgeb (left p) 0); discriminate.
  - intros d p Hp. unfold handlePositionChange.
    apply Qgeb_le in Hp. rewrite Hp. reflexivity.
Qed.

(** C8.  Without a recording, without a reported position, or with the
    pointer left of the element, the handler clears the hover time; for a
    pointer at or right of the left edge over a loaded recording it
    publishes a hover time; and it never raises. *)
Theorem hover_degrades_gracefully (scale currentTime : Q) :
  (forall params : option Params,
     handlePositionChange divide scale currentTime None params = Normal None) /\
  (forall durationMs : option Q,
     handlePositionChange divide scale currentTime durationMs None = Normal None) /\
  (forall (durationMs : Q) (p : Params), left p < 0 ->
     handlePositionChange divide scale currentTime (Some durationMs) (Some p)
     = Normal None) /\
  (forall (durationMs : Q) (p : Params), 0 <= left p ->
     exists t : Q,
       handlePositionChange divide scale currentTime (Some durationMs) (Some p)
       = Normal (Some t)) /\
  (forall (durationMs : option Q) (params : option Params) (e : error),
     handlePositionChange divide scale currentTime durationMs params <> Throw e).
Proof.
  split; [|split; [|split; [|split]]].
  - intros [p|]; reflexivity.
  - intros [d|]; reflexivity.
  - intros d p Hp. unfold handlePositionChange.
    apply Qgeb_lt in Hp. rewrite Hp. reflexivity.
  - intros d p Hp. exists (time divide scale currentTime d p).
    unfold handlePositionChange. apply Qgeb_le in Hp. rewrite Hp. reflexivity.
  - intros [d|] [p|] e; unfold handlePositionChange;
      try destruct (Qgeb (left p) 0); discriminate.
Qed.

(** C10.  For a fixed scale >= 1, element width > 0 and durationMs > 0, and
    whatever the playhead, the published hover time is strictly increasing
    in the pointer position: between two positions it grows by their
    distance times the positive slope [durationMs / (width * scale)]. *)
Theorem hover_time_strictly_increasing
  (scale width durationMs currentTime left1 left2 : Q) :
  1 <= scale -> 0 < width -> 0 < durationMs ->
  0 <= left1 -> left1 < left2 ->
  exists t1 t2 : Q,
    handlePositionChange divide scale currentTime (Some durationMs)
      (Some {| left := left1; width := width |}) = Normal (Some t1) /\
    handlePositionChange divide scale currentTime (Some durationMs)
      (Some {| left := left2; width := width |}) = Normal (Some t2) /\
    t1 < t2 /\
    t2 - t1 == (left2 - left1) * (durationMs / (width * scale)) /\
    0 < durationMs / (width * scale).
Proof.
  intros Hs Hw Hd H1 H12.
  assert (Hs0 : 0 < scale) by lra.
  assert (Es : ~ scale == 0) by now apply pos_nonzero.
  assert (Ew : ~ width == 0) by now apply pos_nonzero.
  pose proof (msPerPixel_pos scale durationMs width Hs0 Hd Hw) as Hm.
  exists (time divide scale currentTime durationMs {| left := left1; width := width |}),
         (time divide scale currentTime durationMs {| left := left2; width := width |}).
  unfold handlePositionChange; cbn [left].
  assert (G1 : Qgeb left1 0 = true) by (apply Qgeb_le; lra).
  assert (G2 : Qgeb left2 0 = true) by (apply Qgeb_le; lra).
  rewrite G1, G2. split; [reflexivity|]. split; [reflexivity|].
  assert (Diff :
    time divide scale currentTime durationMs {| left := left2; width := width |}
    - time divide scale currentTime durationMs {| left := left1; width := width |}
    == (left2 - left1) * msPerPixel scale durationMs width).
  { rewrite (time_affine scale currentTime durationMs left2 width Es Ew).
    rewrite (time_affine scale currentTime durationMs left1 width Es Ew).
    ring. }
  assert (Gap : 0 < (left2 - left1) * msPerPixel scale durationMs width).
  { apply Qmult_lt_0_compat; [lra | exact Hm]. }
  split; [lra|]. split; [exact Diff | exact Hm].
Qed.

End Facts.

Lemma Qdiv_quotient (n d : Q) : ~ d == 0 -> Qdiv n d == n / d.
Proof. intros _. reflexivity. Qed.

(** C1 at zoom 2 over a 60000 ms recording and an 800 px element, with the
    playhead in the middle and the pointer at pixel 200. *)
Lemma pixelToTime_three_branches_witness :
  time Qdiv 2 30000 60000 {| left := 200; width := 800 |}
  == 30000 + ((200 - 800 / 2) / 800) * 60000 / 2.
Proof.
  refine (proj1 (proj2 (proj2
    (pixelToTime_three_branches Qdiv Qdiv_quotient 2 800 60000 30000 200
       _ _ _ _))) _ _).
  - discriminate.
  - reflexivity.
  - reflexivity.
  - split; discriminate.
  - intros H; discriminate H.
  - intros H; discriminate H.
Defined.


Ltac qclosed :=
  repeat match goal with
         | |- _ /\ _ => split
         | |- ~ _ => let H := fresh in intros H; discriminate H
         | |- _ => first [discriminate | reflexivity]
         end.


(** C3 as stated fails: at zoom 1 with the playhead at the start of the
    recording, a position allowed by the claim, the start-pinned branch is
    selected, not the mid branch. *)
Lemma zoom_one_selects_start_branch :
  0 <= 0 <= 60000 /\
  starting Qdiv 1 0 60000 = true /\
  ~ (starting Qdiv 1 0 60000 = false /\ ending Qdiv 1 0 60000 = false).
Proof.
  split; [qclosed|]. split; [reflexivity|].
  intros [H _]. discriminate H.
Qed.

Lemma zoom_one_is_linear_witness :
  time Qdiv 1 15000 60000 {| left := 200; width := 800 |} == (200 / 800) * 60000.
Proof.
  refine (proj1 (proj2 (proj2 (proj2
    (zoom_one_is_linear Qdiv Qdiv_quotient 800 60000 15000 200 _ _ _))))); qclosed.
Defined.

Lemma timeToPixel_round_trip_witness :
  time Qdiv 2 30000 60000
    {| left := timeToPixel Qdiv 2 30000 60000 800 20000; width := 800 |}
  == 20000.
Proof.
  refine (proj1
    (timeToPixel_round_trip Qdiv 2 800 60000 30000 20000
       _ _ _ _ _)); qclosed.
Defined.

(** C7 as stated fails: at zoom 1/2 the conversion does not raise
    [InvalidZoom]; it completes with a number, here 15000 ms. *)
Lemma zoom_half_is_not_rejected :
  (1 # 2) < 1 /\
  handlePositionChange Qdiv (1 # 2) 30000 (Some 60000)
    (Some {| left := 100; width := 800 |}) <> Throw InvalidZoom /\
  exists t : Q,
    handlePositionChange Qdiv (1 # 2) 30000 (Some 60000)
      (Some {| left := 100; width := 800 |}) = Normal (Some t) /\
    t == 15000.
Proof.
  split; [reflexivity|]. split; [discriminate|].
  eexists. split; [reflexivity|]. reflexivity.
Qed.

Lemma zoom_below_one_not_rejected_witness :
  handlePositionChange Qdiv (1 # 2) 30000 (Some 60000)
    (Some {| left := 100; width := 800 |})
  = Normal (Some (time Qdiv (1 # 2) 30000 60000 {| left := 100; width := 800 |})).
Proof.
  refine (proj2 (zoom_below_one_not_rejected Qdiv (1 # 2) 30000 _)
            60000 {| left := 100; width := 800 |} _); qclosed.
Defined.

Lemma hover_degrades_gracefully_witness :
  handlePositionChange Qdiv 2 30000 (Some 60000)
    (Some {| left := -5; width := 800 |}) = Normal None /\
  exists t : Q,
    handlePositionChange Qdiv 2 30000 (Some 60000)
      (Some {| left := 5; width := 800 |}) = Normal (Some t).
Proof.
  split.
  - refine (proj1 (proj2 (proj2 (hover_degrades_gracefully Qdiv 2 30000)))
              60000 {| left := -5; width := 800 |} _); qclosed.
  - refine (proj1 (proj2 (proj2 (proj2 (hover_degrades_gracefully Qdiv 2 30000))))
              60000 {| left := 5; width := 800 |} _); qclosed.
Defined.

Lemma hover_time_strictly_increasing_witness :
  exists t1 t2 : Q,
    handlePositionChange Qdiv 2 30000 (Some 60000)
      (Some {| left := 100; width := 800 |}) = Normal (Some t1) /\
    handlePositionChange Qdiv 2 30000 (Some 60000)
      (Some {| left := 101; width := 800 |}) = Normal (Some t2) /\
    t1 < t2 /\
    t2 - t1 == (101 - 100) * (60000 / (800 * 2)) /\
    0 < 60000 / (800 * 2).
Proof.
  apply (hover_time_strictly_increasing Qdiv 2 800 60000 30000 100 101);
    qclosed.
Defined.

End TimelineMouseTrackingFacts.

(** ** The hover-time computation in double precision *)

Module TimelineMouseTrackingDoublesFacts.

Import PrimFloat.
Import TimelineMouseTrackingDoubles.

Local Open Scope float_scope.


End TimelineMouseTrackingDoublesFacts.

(** ** The rewind and next-breadcrumb buttons *)

Module ReplayControllerFacts.

Import ReplayController.

Local Open Scope Z_scope.

(** *** The scan for the next frame *)

Lemma pickNext_scanned (target : Z) (seen : list ReplayFrame)
  (found : option ReplayFrame) (frame : ReplayFrame) :
  scanned target seen found ->
  scanned target (seen ++ [frame]) (pickNext target found frame).
Proof.
  unfold pickNext, scanned. intros H.
  destruct (Z.leb_spec (offsetMs frame) target) as [Hle | Hgt].
  - destruct found as [f|].
    + destruct H as (Hin & Hlt & Hmin). repeat split.
      * apply in_or_app. now left.
      * exact Hlt.
      * intros g Hg Hg'. apply in_app_or in Hg. destruct Hg as [Hg | [<- | []]].
        -- now apply Hmin.
        -- lia.
    + intros g Hg. apply in_app_or in Hg. destruct Hg as [Hg | [<- | []]].
      * now apply H.
      * exact Hle.
  - destruct found as [f|].
    + destruct H as (Hin & Hlt & Hmin).
      destruct (Z.ltb_spec (offsetMs frame) (offsetMs f)) as [Hbetter | Hkeep].
      * repeat split.
        -- apply in_or_app. right. now left.
        -- exact Hgt.
        -- intros g Hg Hg'. apply in_app_or in Hg.
           destruct Hg as [Hg | [<- | []]].
           ++ specialize (Hmin g Hg Hg'). lia.
           ++ lia.
      * repeat split.
        -- apply in_or_app. now left.
        -- exact Hlt.
        -- intros g Hg Hg'. apply in_app_or in Hg.
           destruct Hg as [Hg | [<- | []]].
           ++ now apply Hmin.
           ++ exact Hkeep.
    + repeat split.
      * apply in_or_app. right. now left.
      * exact Hgt.
      * intros g Hg Hg'. apply in_app_or in Hg.
        destruct Hg as [Hg | [<- | []]].
        -- specialize (H g Hg). lia.
        -- lia.
Qed.

Lemma fold_pickNext_scanned (target : Z) (frames seen : list ReplayFrame)
  (found : option ReplayFrame) :
  scanned target seen found ->
  scanned target (seen ++ frames) (fold_left (pickNext target) frames found).
Proof.
  revert seen found.
  induction frames as [|frame frames IH]; intros seen found H; simpl.
  - now rewrite app_nil_r.
  - replace (seen ++ frame :: frames) with ((seen ++ [frame]) ++ frames)
      by (rewrite <- app_assoc; reflexivity).
    apply IH, pickNext_scanned, H.
Qed.

(** [getNextReplayFrame] returns a frame of the sequence strictly after the
    target with the least offset among those, and nothing exactly when no
    frame lies after the target. *)
Lemma getNextReplayFrame_least (frames : list ReplayFrame) (target : Z) :
  scanned target frames (getNextReplayFrame frames target).
Proof.
  unfold getNextReplayFrame.
  apply (fold_pickNext_scanned target frames [] None).
  intros g [].
Qed.

(** Frames at or before the target are skipped. *)
Lemma fold_pickNext_skip (target : Z) (pre : list ReplayFrame)
  (found : option ReplayFrame) :
  (forall g, In g pre -> offsetMs g <= target) ->
  fold_left (pickNext target) pre found = found.
Proof.
  revert found. induction pre as [|g pre IH]; intros found H; simpl.
  - reflexivity.
  - unfold pickNext at 2.
    destruct (Z.leb_spec (offsetMs g) target) as [_ | Hgt].
    + apply IH. intros g' Hg'. apply H. now right.
    + specialize (H g (or_introl eq_refl)). lia.
Qed.

(** A frame already found is kept while no later frame has a smaller offset. *)
Lemma fold_pickNext_keep (target : Z) (post : list ReplayFrame) (f : ReplayFrame) :
  (forall g, In g post -> offsetMs f <= offsetMs g) ->
  fold_left (pickNext target) post (Some f) = Some f.
Proof.
  induction post as [|g post IH]; intros H; simpl.
  - reflexivity.
  - unfold pickNext at 2.
    destruct (offsetMs g <=? target); [apply IH; intros; apply H; now right|].
    destruct (Z.ltb_spec (offsetMs g) (offsetMs f)) as [Hlt | _].
    + specialize (H g (or_introl eq_refl)). lia.
    + apply IH. intros g' Hg'. apply H. now right.
Qed.

Lemma getNextReplayFrame_split (pre post : list ReplayFrame) (f : ReplayFrame)
  (target : Z) :
  (forall g, In g pre -> offsetMs g <= target) ->
  target < offsetMs f ->
  (forall g, In g post -> offsetMs f <= offsetMs g) ->
  getNextReplayFrame (pre ++ f :: post) target = Some f.
Proof.
  intros Hpre Hf Hpost. unfold getNextReplayFrame.
  rewrite fold_left_app, (fold_pickNext_skip target pre None Hpre). simpl.
  unfold pickNext at 2.
  destruct (Z.leb_spec (offsetMs f) target) as [Hle | _]; [lia|].
  apply fold_pickNext_keep, Hpost.
Qed.

Lemma getNextReplayFrame_none (frames : list ReplayFrame) (target : Z) :
  (forall g, In g frames -> offsetMs g <= target) ->
  getNextReplayFrame frames target = None.
Proof. apply fold_pickNext_skip. Qed.


(** *** Seeking *)

Lemma setCurrentTime_in_range (ms : Z) (ctx : ReplayContext) :
  0 <= ms <= durationMs ctx ->
  currentTime (setCurrentTime ms ctx) = ms.
Proof. intros H. unfold setCurrentTime, clamp. simpl. lia. Qed.

(** *** Walking the frames *)

(** With the frames up to the playhead behind it and strictly ascending
    frames ahead, each click lands on the next frame ahead, and the click
    after the last frame changes nothing. *)
Lemma clicks_walk (r : ReplayReader) (post pre : list ReplayFrame)
  (ctx : ReplayContext) :
  getChapterFrames r = pre ++ post ->
  (forall g, In g pre -> offsetMs g <= currentTime ctx) ->
  StronglySorted Z.lt (map offsetMs post) ->
  (forall g, In g post -> currentTime ctx < offsetMs g <= durationMs ctx) ->
  0 <= currentTime ctx ->
  visited (length post) (Some r) ctx = map offsetMs post /\
  onClickNext (Some r) (clicks (length post) (Some r) ctx)
  = clicks (length post) (Some r) ctx.
Proof.
  revert pre ctx.
  induction post as [|f post IH]; intros pre ctx Hfr Hpre Hsorted Hpost Hc.
  - simpl. split; [reflexivity|].
    rewrite Hfr, app_nil_r.
    now rewrite (getNextReplayFrame_none pre (currentTime ctx) Hpre).
  - simpl in Hsorted. apply StronglySorted_inv in Hsorted.
    destruct Hsorted as [Hsorted Hhead].
    rewrite Forall_forall in Hhead.
    assert (Hahead : forall g, In g post -> offsetMs f < offsetMs g).
    { intros g Hg. apply Hhead, in_map, Hg. }
    destruct (Hpost f (or_introl eq_refl)) as [Hf1 Hf2].
    assert (Hstep : onClickNext (Some r) ctx = setCurrentTime (offsetMs f) ctx).
    { simpl. rewrite Hfr.
      rewrite (getNextReplayFrame_split pre post f (currentTime ctx) Hpre Hf1);
        [reflexivity|].
      intros g Hg. specialize (Hahead g Hg). lia. }
    assert (Hnow : currentTime (setCurrentTime (offsetMs f) ctx) = offsetMs f).
    { apply setCurrentTime_in_range. lia. }
    cbn [length visited clicks map]. rewrite Hstep, Hnow.
    destruct (IH (pre ++ [f]) (setCurrentTime (offsetMs f) ctx)) as [IHv IHc].
    + rewrite Hfr, <- app_assoc. reflexivity.
    + rewrite Hnow. intros g Hg. apply in_app_or in Hg.
      destruct Hg as [Hg | [<- | []]]; [|lia].
      specialize (Hpre g Hg). lia.
    + exact Hsorted.
    + rewrite Hnow. intros g Hg. split.
      * now apply Hahead.
      * apply (Hpost g). now right.
    + rewrite Hnow. lia.
    + split; [now rewrite IHv | exact IHc].
Qed.

(** C5, as the code has it.  "Next breadcrumb" looks up the frame after the
    playhead: the frame found lies strictly after it and has the least
    offset among such frames; the clock seeks to that offset, and when
    there is none the click changes nothing; in neither case does the play
    state change.  Consequently, on a recording whose frames have strictly
    ascending offsets, all after 0 and within the duration (ten of them in
    the scenario), clicks from position 0 visit every frame once, in
    ascending order, and the click after the last one changes nothing. *)
Theorem next_breadcrumb_walks_frames (r : ReplayReader) (ctx : ReplayContext) :
  currentTime ctx = 0 ->
  StronglySorted Z.lt (map offsetMs (getChapterFrames r)) ->
  (forall f, In f (getChapterFrames r) -> 0 < offsetMs f <= durationMs ctx) ->
  (forall c : ReplayContext,
     scanned (currentTime c) (getChapterFrames r)
       (getNextReplayFrame (getChapterFrames r) (currentTime c))) /\
  (forall (c : ReplayContext) (next : ReplayFrame),
     getNextReplayFrame (getChapterFrames r) (currentTime c) = Some next ->
     onClickNext (Some r) c = setCurrentTime (offsetMs next) c) /\
  (forall c : ReplayContext,
     getNextReplayFrame (getChapterFrames r) (currentTime c) = None ->
     onClickNext (Some r) c = c) /\
  (forall c : ReplayContext, phase (onClickNext (Some r) c) = phase c) /\
  visitsEveryFrameOnce r ctx.
Proof.
  intros H0 Hsorted Hrange.
  split; [intros c; apply getNextReplayFrame_least|].
  split; [intros c next E; simpl; now rewrite E|].
  split; [intros c E; simpl; now rewrite E|].
  split.
  - intros c. simpl.
    destruct (getNextReplayFrame (getChapterFrames r) (currentTime c));
      reflexivity.
  - unfold visitsEveryFrameOnce.
    apply (clicks_walk r (getChapterFrames r) [] ctx).
    + reflexivity.
    + intros g [].
    + exact Hsorted.
    + rewrite H0. exact Hrange.
    + lia.
Qed.

(** C6.  Rewinding by any amount from any position is a seek to the
    position less the amount: the result is clamped at 0 from below (and
    never negative), the play state and speed are untouched; the
    "Rewind 10s" button is the rewind by ten seconds. *)
Theorem rewind_clamps_at_zero (ctx : ReplayContext) (deltaMs : Z) :
  0 < durationMs ctx ->
  rewind deltaMs ctx = setCurrentTime (currentTime ctx - deltaMs) ctx /\
  currentTime (rewind deltaMs ctx)
  = Z.min (Z.max (currentTime ctx - deltaMs) 0) (durationMs ctx) /\
  0 <= currentTime (rewind deltaMs ctx) <= durationMs ctx /\
  (currentTime ctx - deltaMs <= 0 -> currentTime (rewind deltaMs ctx) = 0) /\
  (0 <= currentTime ctx - deltaMs <= durationMs ctx ->
   currentTime (rewind deltaMs ctx) = currentTime ctx - deltaMs) /\
  phase (rewind deltaMs ctx) = phase ctx /\
  speed (rewind deltaMs ctx) = speed ctx /\
  onClickRewind ctx = rewind (10 * SECOND) ctx.
Proof.
  intros Hd. unfold onClickRewind, rewind, setCurrentTime, clamp. simpl.
  repeat split; try reflexivity; lia.
Qed.


(** C5 as stated fails on a ten-frame recording whose first frame sits at
    offset 0: starting from position 0 the scan looks strictly after the
    playhead, so that frame is never visited; nine clicks reach the last
    frame and the tenth already changes nothing. *)
Lemma frame_at_zero_is_skipped :
  length (breadcrumbsAt [0; 1000; 2000; 3000; 4000; 5000; 6000; 7000; 8000; 9000])
  = 10%nat /\
  visited 10
    (Some {| getDurationMs := 10000;
             getChapterFrames :=
               breadcrumbsAt [0; 1000; 2000; 3000; 4000; 5000; 6000; 7000; 8000; 9000] |})
    {| durationMs := 10000; currentTime := 0; phase := Paused; speed := 1 |}
  = [1000; 2000; 3000; 4000; 5000; 6000; 7000; 8000; 9000; 9000] /\
  ~ visitsEveryFrameOnce
      {| getDurationMs := 10000;
         getChapterFrames :=
           breadcrumbsAt [0; 1000; 2000; 3000; 4000; 5000; 6000; 7000; 8000; 9000] |}
      {| durationMs := 10000; currentTime := 0; phase := Paused; speed := 1 |}.
Proof.
  split; [reflexivity|]. split; [reflexivity|].
  intros [H _]. vm_compute in H. discriminate H.
Qed.

(** Two frames sharing an offset are reached by a single click: of ten
    frames with one tie, nine positions are visited. *)
Lemma tied_frames_are_visited_together :
  visited 10
    (Some {| getDurationMs := 10000;
             getChapterFrames :=
               breadcrumbsAt [1000; 2000; 2000; 3000; 4000; 5000; 6000; 7000; 8000; 9000] |})
    {| durationMs := 10000; currentTime := 0; phase := Paused; speed := 1 |}
  = [1000; 2000; 3000; 4000; 5000; 6000; 7000; 8000; 9000; 9000].
Proof. reflexivity. Qed.

(** A frame beyond the duration is never reached: the seek is clamped. *)
Lemma frame_beyond_duration_is_clamped :
  visited 3
    (Some {| getDurationMs := 2500;
             getChapterFrames := breadcrumbsAt [1000; 2000; 3000] |})
    {| durationMs := 2500; currentTime := 0; phase := Paused; speed := 1 |}
  = [1000; 2000; 2500].
Proof. reflexivity. Qed.

(** Ten frames, one per second from 1000 ms to 10000 ms. *)
Lemma next_breadcrumb_walks_frames_witness :
  visitsEveryFrameOnce
    {| getDurationMs := 10000;
       getChapterFrames :=
         breadcrumbsAt [1000; 2000; 3000; 4000; 5000; 6000; 7000; 8000; 9000; 10000] |}
    {| durationMs := 10000; currentTime := 0; phase := Paused; speed := 1 |}.
Proof.
  refine (proj2 (proj2 (proj2 (proj2
    (next_breadcrumb_walks_frames _ _ _ _ _))))).
  - reflexivity.
  - simpl. repeat constructor.
  - intros f Hin. simpl in Hin.
    repeat (destruct Hin as [<- | Hin]; [simpl; lia|]). destruct Hin.
Defined.

(** Rewinding ten seconds from 4000 ms while playing lands on 0. *)
Lemma rewind_clamps_at_zero_witness :
  currentTime
    (rewind 10000
       {| durationMs := 60000; currentTime := 4000; phase := Playing; speed := 1 |})
  = 0 /\
  phase
    (rewind 10000
       {| durationMs := 60000; currentTime := 4000; phase := Playing; speed := 1 |})
  = Playing.
Proof.
  pose proof (rewind_clamps_at_zero
    {| durationMs := 60000; currentTime := 4000; phase := Playing; speed := 1 |}
    10000 eq_refl) as (_ & _ & _ & Hzero & _ & Hphase & _).
  split; [apply Hzero; discriminate | exact Hphase].
Defined.

End ReplayControllerFacts.

(** * Further properties of the code *)

(** ** The hover-time computation *)

Module TimelineMouseTrackingExtras.

Import TimelineMouseTracking.
Import TimelineMouseTrackingFacts.

Section Extras.

Variable divide : Q -> Q -> Q.
Hypothesis divide_quotient : forall n d : Q, ~ d == 0 -> divide n d == n / d.

(** X1.  Whatever the playhead, the element spans [durationMs / scale] of
    the recording: the times at its right and left edges differ by exactly
    that much. *)
Theorem visible_window_span (scale currentTime durationMs width : Q) :
  ~ scale == 0 -> ~ width == 0 ->
  time divide scale currentTime durationMs {| left := width; width := width |}
  - time divide scale currentTime durationMs {| left := 0; width := width |}
  == durationMs / scale.
Proof.
  intros Es Ew.
  rewrite (time_affine divide scale currentTime durationMs width width Es Ew).
  rewrite (width_span scale durationMs width Es Ew).
  unfold halfWindow. field. exact Es.
Qed.

(** X2.  For scale >= 1 the three branches are a clamp: the time at the
    left edge is the start of the window centred on the playhead,
    [currentTime - halfWindow], clamped into [[0, durationMs - window]];
    every other position adds its distance times the slope. *)
Theorem window_start_is_clamped (scale currentTime durationMs left width : Q) :
  1 <= scale -> 0 < durationMs -> 0 < width ->
  time divide scale currentTime durationMs {| left := left; width := width |}
  == Qmin (Qmax (currentTime - halfWindow scale durationMs) 0)
          (durationMs - 2 * halfWindow scale durationMs)
     + left * msPerPixel scale durationMs width.
Proof.
  intros Hs Hd Hw.
  assert (Hs0 : 0 < scale) by lra.
  assert (Es : ~ scale == 0) by now apply pos_nonzero.
  assert (Ew : ~ width == 0) by now apply pos_nonzero.
  rewrite (time_affine divide scale currentTime durationMs left width Es Ew).
  rewrite (time_left_edge divide scale currentTime durationMs width Es Ew).
  destruct (halfWindow_bounds scale durationMs Hs Hd) as [H0 H2].
  destruct (Q.max_spec (currentTime - halfWindow scale durationMs) 0)
    as [[M1 M2] | [M1 M2]];
  destruct (Q.min_spec (Qmax (currentTime - halfWindow scale durationMs) 0)
              (durationMs - 2 * halfWindow scale durationMs))
    as [[N1 N2] | [N1 N2]];
  rewrite N2; try rewrite M2; rewrite ?M2 in N1;
  destruct (branch_cases divide divide_quotient scale currentTime durationMs Hs0 Hd)
    as [[S L] | [[S [E [L1 L2]]] | [S [E [L1 L2]]]]];
  rewrite S; try rewrite E; lra.
Qed.

(** X4.  For scale >= 1 the start test and the end test never hold
    together, so the order in which the code tries them does not matter. *)
Theorem start_and_end_tests_exclusive (scale currentTime durationMs : Q) :
  1 <= scale -> 0 < durationMs ->
  ~ (starting divide scale currentTime durationMs = true /\
     ending divide scale currentTime durationMs = true).
Proof.
  intros Hs Hd [S E].
  assert (Hs0 : 0 < scale) by lra.
  destruct (percent_vs_time scale currentTime durationMs Hs0 Hd) as [P1 P2].
  apply (starting_true divide divide_quotient scale currentTime durationMs Hd), P1 in S.
  apply (ending_true divide divide_quotient scale currentTime durationMs Hd), P2 in E.
  destruct (halfWindow_bounds scale durationMs Hs Hd) as [H0 H2]. lra.
Qed.


(** X6.  For scale >= 1 and a playhead at least half a window from both
    ends, the window is centred on the playhead: the middle of the element
    maps to the current time and the edges to half a window before and
    after it. *)
Theorem window_centred_on_playhead (scale currentTime durationMs width : Q) :
  1 <= scale -> 0 < durationMs -> 0 < width ->
  halfWindow scale durationMs <= currentTime ->
  currentTime + halfWindow scale durationMs <= durationMs ->
  time divide scale currentTime durationMs {| left := width / 2; width := width |}
  == currentTime /\
  time divide scale currentTime durationMs {| left := 0; width := width |}
  == currentTime - halfWindow scale durationMs /\
  time divide scale currentTime durationMs {| left := width; width := width |}
  == currentTime + halfWindow scale durationMs.
Proof.
  intros Hs Hd Hw Hlo Hhi.
  assert (Hs0 : 0 < scale) by lra.
  assert (Es : ~ scale == 0) by now apply pos_nonzero.
  assert (Ew : ~ width == 0) by now apply pos_nonzero.
  assert (Base :
    time divide scale currentTime durationMs {| left := 0; width := width |}
    == currentTime - halfWindow scale durationMs).
  { rewrite (time_left_edge divide scale currentTime durationMs width Es Ew).
    destruct (branch_cases divide divide_quotient scale currentTime durationMs Hs0 Hd)
      as [[S L] | [[S [E [L1 L2]]] | [S [E [L1 L2]]]]];
      rewrite S; try rewrite E; lra. }
  pose proof (width_span scale durationMs width Es Ew) as Span.
  assert (Half : (width / 2) * msPerPixel scale durationMs width
                 == halfWindow scale durationMs).
  { unfold msPerPixel, halfWindow. field. split; assumption. }
  split; [|split; [exact Base|]].
  - rewrite (time_affine divide scale currentTime durationMs (width / 2) width Es Ew).
    rewrite Base, Half. ring.
  - rewrite (time_affine divide scale currentTime durationMs width width Es Ew).
    rewrite Base, Span. ring.
Qed.


(** X7.  The hover time depends on the pointer only through [left / width]:
    scaling the element and the pointer's offset by the same positive factor
    changes neither the time nor whether one is published. *)
Theorem hover_invariant_under_resize
  (k scale currentTime durationMs left width : Q) :
  0 < k -> ~ width == 0 ->
  time divide scale currentTime durationMs
    {| left := k * left; width := k * width |}
  == time divide scale currentTime durationMs {| left := left; width := width |} /\
  (handlePositionChange divide scale currentTime (Some durationMs)
     (Some {| left := k * left; width := k * width |}) = Normal None
   <-> handlePositionChange divide scale currentTime (Some durationMs)
         (Some {| left := left; width := width |}) = Normal None).
Proof.
  intros Hk Ew.
  assert (Ek : ~ k == 0) by now apply pos_nonzero.
  assert (R1 : (k * left) / (k * width) == left / width)
    by (field; split; assumption).
  assert (R2 : (k * left - (k * width) / 2) / (k * width)
               == (left - width / 2) / width)
    by (field; split; assumption).
  split.
  - unfold time. cbn [TimelineMouseTracking.left TimelineMouseTracking.width].
    destruct (starting divide scale currentTime durationMs);
      [|destruct (ending divide scale currentTime durationMs)];
      rewrite ?R1, ?R2; reflexivity.
  - unfold handlePositionChange. cbn [TimelineMouseTracking.left].
    assert (G : Qgeb (k * left) 0 = Qgeb left 0).
    { destruct (Qgeb left 0) eqn:G0.
      - apply Qgeb_le. apply Qgeb_le in G0.
        apply Qmult_le_0_compat; [apply Qlt_le_weak, Hk | exact G0].
      - apply Qgeb_lt. apply Qgeb_lt in G0.
        setoid_replace 0 with (k * 0) by ring.
        apply Qmult_lt_l; assumption. }
    rewrite G. destruct (Qgeb left 0); split; intros H; try discriminate H;
      reflexivity.
Qed.


(** X9.  The handler guards the left edge only.  A pointer right of the
    element gets a time later than the one at the right edge; with the
    playhead less than half a window from the end, that time lies beyond
    the duration. *)
Theorem pointer_right_of_element_overshoots
  (scale currentTime durationMs left width : Q) :
  1 <= scale -> 0 < durationMs -> 0 < width -> width < left ->
  exists t : Q,
    handlePositionChange divide scale currentTime (Some durationMs)
      (Some {| left := left; width := width |}) = Normal (Some t) /\
    time divide scale currentTime durationMs {| left := width; width := width |} < t /\
    (durationMs - halfWindow scale durationMs < currentTime -> durationMs < t).
Proof.
  intros Hs Hd Hw Hl.
  assert (Hs0 : 0 < scale) by lra.
  assert (Es : ~ scale == 0) by now apply pos_nonzero.
  assert (Ew : ~ width == 0) by now apply pos_nonzero.
  pose proof (msPerPixel_pos scale durationMs width Hs0 Hd Hw) as Hm.
  exists (time divide scale currentTime durationMs {| left := left; width := width |}).
  unfold handlePositionChange. cbn [TimelineMouseTracking.left].
  assert (G : Qgeb left 0 = true) by (apply Qgeb_le; lra).
  rewrite G. split; [reflexivity|].
  rewrite (time_affine divide scale currentTime durationMs left width Es Ew).
  rewrite (time_affine divide scale currentTime durationMs width width Es Ew).
  assert (B : width * msPerPixel scale durationMs width
              < left * msPerPixel scale durationMs width)
    by (apply Qmult_lt_compat_r; assumption).
  split; [lra|].
  intros Hend.
  rewrite (time_left_edge divide scale currentTime durationMs width Es Ew).
  destruct (halfWindow_bounds scale durationMs Hs Hd) as [H0 H2].
  pose proof (width_span scale durationMs width Es Ew) as Span.
  destruct (branch_cases divide divide_quotient scale currentTime durationMs Hs0 Hd)
    as [[S L] | [[S [E [L1 L2]]] | [S [E [L1 L2]]]]];
    rewrite S; try rewrite E; lra.
Qed.

(** X10.  Over a recording of zero duration the pointer position plays no
    part: the time is 0 in the pinned branches and the current time in the
    mid branch. *)
Theorem zero_duration_ignores_pointer (scale currentTime : Q) (p : Params) :
  ~ scale == 0 -> ~ width p == 0 ->
  (starting divide scale currentTime 0 = true \/
   ending divide scale currentTime 0 = true ->
   time divide scale currentTime 0 p == 0) /\
  (starting divide scale currentTime 0 = false ->
   ending divide scale currentTime 0 = false ->
   time divide scale currentTime 0 p == currentTime) /\
  (0 <= left p ->
   exists t : Q,
     handlePositionChange divide scale currentTime (Some 0) (Some p)
     = Normal (Some t) /\ (t == 0 \/ t == currentTime)).
Proof.
  intros Es Ew.
  assert (T : time divide scale currentTime 0 p
              == if starting divide scale currentTime 0 then 0
                 else if ending divide scale currentTime 0 then 0
                      else currentTime).
  { unfold time.
    destruct (starting divide scale currentTime 0);
      [|destruct (ending divide scale currentTime 0)];
      field; try split; assumption. }
  split; [|split].
  - intros [S | E]; rewrite T.
    + rewrite S. reflexivity.
    + rewrite E. destruct (starting divide scale currentTime 0); reflexivity.
  - intros S E. rewrite T, S, E. reflexivity.
  - intros Hl. exists (time divide scale currentTime 0 p).
    unfold handlePositionChange. apply Qgeb_le in Hl. rewrite Hl.
    split; [reflexivity|]. rewrite T.
    destruct (starting divide scale currentTime 0);
      [|destruct (ending divide scale currentTime 0)];
      [left | left | right]; reflexivity.
Qed.

End Extras.

Lemma visible_window_span_witness :
  time Qdiv 2 30000 60000 {| left := 800; width := 800 |}
  - time Qdiv 2 30000 60000 {| left := 0; width := 800 |}
  == 60000 / 2.
Proof.
  apply (visible_window_span Qdiv 2 30000 60000 800); qclosed.
Defined.

Lemma window_start_is_clamped_witness :
  time Qdiv 2 50000 60000 {| left := 200; width := 800 |}
  == Qmin (Qmax (50000 - halfWindow 2 60000) 0) (60000 - 2 * halfWindow 2 60000)
     + 200 * msPerPixel 2 60000 800.
Proof.
  apply (window_start_is_clamped Qdiv Qdiv_quotient 2 50000 60000 200 800);
    qclosed.
Defined.

Lemma start_and_end_tests_exclusive_witness :
  ~ (starting Qdiv 2 30000 60000 = true /\ ending Qdiv 2 30000 60000 = true).
Proof.
  apply (start_and_end_tests_exclusive Qdiv Qdiv_quotient 2 30000 60000);
    qclosed.
Defined.


Lemma window_centred_on_playhead_witness :
  time Qdiv 2 30000 60000 {| left := 800 / 2; width := 800 |} == 30000 /\
  time Qdiv 2 30000 60000 {| left := 0; width := 800 |}
  == 30000 - halfWindow 2 60000 /\
  time Qdiv 2 30000 60000 {| left := 800; width := 800 |}
  == 30000 + halfWindow 2 60000.
Proof.
  apply (window_centred_on_playhead Qdiv Qdiv_quotient 2 30000 60000 800);
    qclosed.
Defined.

Lemma hover_invariant_under_resize_witness :
  time Qdiv 2 30000 60000 {| left := 2 * 200; width := 2 * 800 |}
  == time Qdiv 2 30000 60000 {| left := 200; width := 800 |}.
Proof.
  refine (proj1 (hover_invariant_under_resize Qdiv 2 2 30000 60000 200 800 _ _));
    qclosed.
Defined.


Lemma pointer_right_of_element_overshoots_witness :
  exists t : Q,
    handlePositionChange Qdiv 2 55000 (Some 60000)
      (Some {| left := 900; width := 800 |}) = Normal (Some t) /\
    time Qdiv 2 55000 60000 {| left := 800; width := 800 |} < t /\
    (60000 - halfWindow 2 60000 < 55000 -> 60000 < t).
Proof.
  apply (pointer_right_of_element_overshoots Qdiv Qdiv_quotient 2 55000 60000 900 800);
    qclosed.
Defined.

Lemma zero_duration_ignores_pointer_witness :
  exists t : Q,
    handlePositionChange Qdiv 2 5000 (Some 0) (Some {| left := 200; width := 800 |})
    = Normal (Some t) /\ (t == 0 \/ t == 5000).
Proof.
  refine (proj2 (proj2 (zero_duration_ignores_pointer Qdiv 2 5000
            {| left := 200; width := 800 |} _ _)) _); qclosed.
Defined.

End TimelineMouseTrackingExtras.

(** ** The replay controller *)

Module ReplayControllerExtras.

Import ReplayController.
Import ReplayControllerBar.
Import ReplayControllerFacts.

(** X11.  The controller switches to its compact layout exactly when the
    bar is mounted and narrower than the breakpoint; while the bar is not
    mounted, the fallback width keeps the layout wide. *)
Theorem compact_iff_mounted_and_narrow (barWidth : option Q) :
  updateIsCompact barWidth = true
  <-> exists w : Q, barWidth = Some w /\ (w < COMPACT_WIDTH_BREAKPOINT)%Q.
Proof.
  unfold updateIsCompact. rewrite Qltb_lt. split.
  - destruct barWidth as [w|]; intros H.
    + exists w. split; [reflexivity | exact H].
    + exfalso. exact (Qlt_irrefl _ H).
  - intros [w [-> H]]. exact H.
Qed.

Local Open Scope Z_scope.

(** X12.  From a playhead within the recording, [n] clicks on "Rewind 10s"
    take it back by [n] times ten seconds, stopping at 0; the play state
    is untouched. *)
Theorem rewinds_stop_at_zero (n : nat) (ctx : ReplayContext) :
  0 <= currentTime ctx <= durationMs ctx ->
  currentTime (rewinds n ctx)
  = Z.max 0 (currentTime ctx - Z.of_nat n * (10 * SECOND)) /\
  phase (rewinds n ctx) = phase ctx /\
  durationMs (rewinds n ctx) = durationMs ctx.
Proof.
  revert ctx. induction n as [|k IH]; intros ctx Hc.
  - simpl. repeat split; lia.
  - cbn [rewinds].
    assert (Hstep : currentTime (onClickRewind ctx)
                    = Z.max 0 (currentTime ctx - 10 * SECOND)).
    { unfold onClickRewind, setCurrentTime, clamp, SECOND. simpl. lia. }
    destruct (IH (onClickRewind ctx)) as (IHc & IHp & IHd).
    + rewrite Hstep. unfold onClickRewind, setCurrentTime, SECOND. simpl. lia.
    + rewrite IHc, IHp, IHd, Hstep, Nat2Z.inj_succ.
      unfold onClickRewind, setCurrentTime, SECOND. simpl.
      repeat split; lia.
Qed.

(** X13.  From a playhead within the recording, a click on "Next
    breadcrumb" never moves the playhead back nor past the duration, never
    jumps over a chapter frame, and moves forward exactly when the playhead
    is before the end and some chapter frame lies after it; the play state
    is untouched.  This holds for any frames, sorted or not, tied or not. *)
Theorem next_never_skips_a_frame (r : ReplayReader) (ctx : ReplayContext) :
  0 <= currentTime ctx <= durationMs ctx ->
  currentTime ctx <= currentTime (onClickNext (Some r) ctx) <= durationMs ctx /\
  (forall g, In g (getChapterFrames r) ->
     ~ (currentTime ctx < offsetMs g < currentTime (onClickNext (Some r) ctx))) /\
  (currentTime ctx < currentTime (onClickNext (Some r) ctx)
   <-> currentTime ctx < durationMs ctx /\
       exists g, In g (getChapterFrames r) /\ currentTime ctx < offsetMs g) /\
  phase (onClickNext (Some r) ctx) = phase ctx.
Proof.
  intros Hc.
  pose proof (getNextReplayFrame_least (getChapterFrames r) (currentTime ctx)) as L.
  cbn [onClickNext].
  destruct (getNextReplayFrame (getChapterFrames r) (currentTime ctx)) as [f|];
    cbn [scanned] in L.
  - destruct L as (Hin & Hlt & Hmin).
    assert (Hnow : currentTime (setCurrentTime (offsetMs f) ctx)
                   = Z.min (offsetMs f) (durationMs ctx)).
    { unfold setCurrentTime, clamp. simpl. lia. }
    rewrite Hnow. split; [lia|]. split; [|split; [|reflexivity]].
    + intros g Hg [G1 G2]. specialize (Hmin g Hg G1). lia.
    + split.
      * intros H. split; [lia|]. exists f. split; assumption.
      * intros [H _]. lia.
  - split; [lia|]. split; [|split; [|reflexivity]].
    + intros g Hg [G1 G2]. lia.
    + split; [lia|]. intros [_ [g [Hg G]]]. specialize (L g Hg). lia.
Qed.

Lemma rewinds_stop_at_zero_witness :
  currentTime
    (rewinds 3
       {| durationMs := 60000; currentTime := 25000; phase := Playing; speed := 1 |})
  = Z.max 0 (25000 - Z.of_nat 3 * (10 * SECOND)).
Proof.
  refine (proj1 (rewinds_stop_at_zero 3
    {| durationMs := 60000; currentTime := 25000; phase := Playing; speed := 1 |}
    _)).
  simpl. lia.
Defined.

Lemma next_never_skips_a_frame_witness :
  500
  <= currentTime
       (onClickNext
          (Some {| getDurationMs := 5000;
                   getChapterFrames := breadcrumbsAt [3000; 1000; 1000; 7000] |})
          {| durationMs := 5000; currentTime := 500; phase := Paused; speed := 1 |})
  <= 5000.
Proof.
  refine (proj1 (next_never_skips_a_frame
    {| getDurationMs := 5000;
       getChapterFrames := breadcrumbsAt [3000; 1000; 1000; 7000] |}
    {| durationMs := 5000; currentTime := 500; phase := Paused; speed := 1 |}
    _)).
  simpl. lia.
Defined.

End ReplayControllerExtras.

(** ** The cron timeline section *)

Module CronTimelineSectionExtras.

Import CronTimelineSection.

Local Open Scope Q_scope.

Lemma Qpos_nonzero (x : Q) : 0 < x -> ~ x == 0.
Proof. intros H E. rewrite E in H. exact (Qlt_irrefl 0 H). Qed.

(** The tick position is the time since the start of the window, scaled by
    the pixels the window has per millisecond. *)
Lemma eventTickLeft_linear (dateReceived start finish elapsedMinutes width : Q) :
  0 < width -> start < finish ->
  elapsedMinutes == (finish - start) / 60000 ->
  eventTickLeft dateReceived start elapsedMinutes width
  == (dateReceived - start) * (width / (finish - start)).
Proof.
  intros Hw Hse He. unfold eventTickLeft, msPerPixel. rewrite He.
  field. split; [|apply Qpos_nonzero, Hw].
  apply Qpos_nonzero. lra.
Qed.

(** X14.  When the configuration's [elapsedMinutes] is the length of the
    window, the tick of an event received at the start of the window is at
    pixel 0; an event received strictly within the window is drawn strictly
    within the timeline, one received before the window left of it and one
    received after the window right of it; and a later event is drawn
    further right. *)
Theorem event_tick_follows_window (start finish elapsedMinutes width : Q) :
  0 < width -> start < finish ->
  elapsedMinutes == (finish - start) / 60000 ->
  eventTickLeft start start elapsedMinutes width == 0 /\
  (forall dateReceived : Q, start < dateReceived < finish ->
     0 < eventTickLeft dateReceived start elapsedMinutes width < width) /\
  (forall dateReceived : Q, dateReceived < start ->
     eventTickLeft dateReceived start elapsedMinutes width < 0) /\
  (forall dateReceived : Q, finish < dateReceived ->
     width < eventTickLeft dateReceived start elapsedMinutes width) /\
  (forall earlier later : Q, earlier < later ->
     eventTickLeft earlier start elapsedMinutes width
     < eventTickLeft later start elapsedMinutes width).
Proof.
  intros Hw Hse He.
  assert (Hlen : 0 < finish - start) by lra.
  assert (Hslope : 0 < width / (finish - start)).
  { apply Qlt_shift_div_l; [exact Hlen | lra]. }
  assert (Hfull : (finish - start) * (width / (finish - start)) == width).
  { field. apply Qpos_nonzero, Hlen. }
  assert (Hzero : 0 * (width / (finish - start)) == 0) by ring.
  assert (Mono : forall r1 r2 : Q, r1 < r2 ->
            (r1 - start) * (width / (finish - start))
            < (r2 - start) * (width / (finish - start))).
  { intros r1 r2 Hr. apply Qmult_lt_compat_r; [exact Hslope | lra]. }
  assert (Estart : (start - start) * (width / (finish - start)) == 0) by ring.
  split; [|split; [|split; [|split]]].
  - rewrite (eventTickLeft_linear start start finish elapsedMinutes width Hw Hse He).
    exact Estart.
  - intros r [Hr1 Hr2].
    rewrite (eventTickLeft_linear r start finish elapsedMinutes width Hw Hse He).
    pose proof (Mono start r Hr1) as A. pose proof (Mono r finish Hr2) as B.
    rewrite Estart in A. rewrite Hfull in B. split; assumption.
  - intros r Hr.
    rewrite (eventTickLeft_linear r start finish elapsedMinutes width Hw Hse He).
    pose proof (Mono r start Hr) as A. rewrite Estart in A. exact A.
  - intros r Hr.
    rewrite (eventTickLeft_linear r start finish elapsedMinutes width Hw Hse He).
    pose proof (Mono finish r Hr) as A. rewrite Hfull in A. exact A.
  - intros r1 r2 Hr.
    rewrite (eventTickLeft_linear r1 start finish elapsedMinutes width Hw Hse He).
    rewrite (eventTickLeft_linear r2 start finish elapsedMinutes width Hw Hse He).
    apply Mono, Hr.
Qed.

(** X15.  The "Event Created" label is never placed left of the timeline;
    on a timeline at least 50 px wide it is placed at most 50 px before the
    right end, and exactly at the tick while the tick is in that range; on
    a narrower timeline it sits at 0. *)
Theorem event_label_stays_on_timeline (left timelineWidth : Q) :
  0 <= eventLineLabelLeft left timelineWidth /\
  (50 <= timelineWidth -> eventLineLabelLeft left timelineWidth <= timelineWidth - 50) /\
  (0 <= left <= timelineWidth - 50 -> eventLineLabelLeft left timelineWidth == left) /\
  (timelineWidth < 50 -> eventLineLabelLeft left timelineWidth == 0).
Proof.
  unfold eventLineLabelLeft.
  destruct (Q.min_spec left (timelineWidth - 50)) as [[N1 N2] | [N1 N2]];
  destruct (Q.max_spec 0 (Qmin left (timelineWidth - 50))) as [[M1 M2] | [M1 M2]];
  rewrite M2; rewrite ?N2; rewrite ?N2 in M1;
  repeat split; intros; lra.
Qed.

(** [tagValue] reads the first tag with the key, whatever follows it. *)
Lemma tagValue_some (k : string) (tags : list EventTag) (v : string) :
  tagValue k tags = Some v
  <-> exists pre tag post,
        tags = pre ++ tag :: post /\
        (forall t, In t pre -> key t <> k) /\
        key tag = k /\ value tag = v.
Proof.
  unfold tagValue. induction tags as [|t tags IH]; simpl.
  - split; [discriminate|].
    intros (pre & tag & post & E & _). destruct pre; discriminate E.
  - destruct (String.eqb_spec (key t) k) as [Hk | Hk]; simpl.
    + split.
      * intros E. inversion E. exists [], t, tags. repeat split; trivial.
        intros t' [].
      * intros (pre & tag & post & E & Hpre & Hkey & Hv).
        destruct pre as [|t' pre]; simpl in E; inversion E; subst.
        -- reflexivity.
        -- exfalso. apply (Hpre t'); [now left | reflexivity].
    + rewrite IH. split.
      * intros (pre & tag & post & E & Hpre & Hkey & Hv).
        exists (t :: pre), tag, post. rewrite E. repeat split; trivial.
        intros t' [<- | Hin]; [exact Hk | now apply Hpre].
      * intros (pre & tag & post & E & Hpre & Hkey & Hv).
        destruct pre as [|t' pre]; simpl in E; inversion E; subst.
        -- contradiction.
        -- exists pre, tag, post. repeat split; trivial.
           intros t'' Hin. apply Hpre. now right.
Qed.

Lemma tagValue_none (k : string) (tags : list EventTag) :
  tagValue k tags = None <-> forall t, In t tags -> key t <> k.
Proof.
  unfold tagValue. induction tags as [|t tags IH]; simpl.
  - split; [intros _ t [] | reflexivity].
  - destruct (String.eqb_spec (key t) k) as [Hk | Hk]; simpl.
    + split; [discriminate|]. intros H. exfalso.
      apply (H t); [now left | exact Hk].
    + rewrite IH. split.
      * intros H t' [<- | Hin]; [exact Hk | now apply H].
      * intros H t' Hin. apply H. now right.
Qed.

Section Gate.

Variable Stat : Type.

Local Open Scope string_scope.

(** X16.  The section is rendered exactly when the first [monitor.id] tag
    of the event has a non-empty value (later [monitor.id] tags are not
    looked at), and then the statistics query was enabled for that one
    monitor.  When no tag has the key, the query is disabled (and asks for
    the empty id); when the first such tag has an empty value, the query is
    enabled for the empty id although nothing is rendered. *)
Theorem section_requires_monitor_id (tags : list EventTag)
  (monitorStats : option (list (string * list Stat))) (isPending : bool)
  (tick : Q) :
  (render Stat tags monitorStats isPending tick <> RenderNull Stat
   <-> exists pre tag post,
         tags = (pre ++ tag :: post)%list /\
         (forall t, In t pre -> key t <> "monitor.id") /\
         key tag = "monitor.id" /\ value tag <> EmptyString) /\
  (forall pre tag post,
     tags = (pre ++ tag :: post)%list ->
     (forall t, In t pre -> key t <> "monitor.id") ->
     key tag = "monitor.id" ->
     monitorStatsOptions tags = {| monitors := [value tag]; enabled := true |} /\
     (value tag = EmptyString ->
      render Stat tags monitorStats isPending tick = RenderNull Stat)) /\
  ((forall t, In t tags -> key t <> "monitor.id") ->
   monitorStatsOptions tags = {| monitors := [EmptyString]; enabled := false |} /\
   render Stat tags monitorStats isPending tick = RenderNull Stat).
Proof.
  assert (First : forall pre tag post,
            tags = (pre ++ tag :: post)%list ->
            (forall t, In t pre -> key t <> "monitor.id") ->
            key tag = "monitor.id" ->
            monitorId tags = Some (value tag)).
  { intros pre tag post E Hpre Hkey. unfold monitorId.
    apply tagValue_some. exists pre, tag, post. repeat split; trivial. }
  split; [|split].
  - split.
    + intros H. unfold render, noMonitorId in H.
      destruct (monitorId tags) as [id|] eqn:Eid; [|now contradiction H].
      destruct (String.eqb_spec id EmptyString) as [-> | Hne];
        [now contradiction H|].
      apply tagValue_some in Eid.
      destruct Eid as (pre & tag & post & E & Hpre & Hkey & Hv).
      exists pre, tag, post. repeat split; trivial. now rewrite Hv.
    + intros (pre & tag & post & E & Hpre & Hkey & Hne).
      unfold render, noMonitorId. rewrite (First pre tag post E Hpre Hkey).
      destruct (String.eqb_spec (value tag) EmptyString) as [Hv | _];
        [contradiction | discriminate].
  - intros pre tag post E Hpre Hkey.
    unfold monitorStatsOptions, render, noMonitorId.
    rewrite (First pre tag post E Hpre Hkey). split; [reflexivity|].
    intros ->. reflexivity.
  - intros Hnone. apply (tagValue_none "monitor.id") in Hnone.
    unfold monitorStatsOptions, render, noMonitorId, monitorId.
    rewrite Hnone. split; reflexivity.
Qed.

End Gate.

Lemma event_tick_follows_window_witness :
  eventTickLeft 0 0 1440 315 == 0 /\
  0 < eventTickLeft 43200000 0 1440 315 < 315.
Proof.
  destruct (event_tick_follows_window 0 86400000 1440 315) as (H0 & Hin & _).
  - reflexivity.
  - reflexivity.
  - reflexivity.
  - split; [exact H0|]. apply Hin. split; reflexivity.
Defined.

Lemma event_label_stays_on_timeline_witness :
  eventLineLabelLeft 1190 1200 <= 1200 - 50.
Proof.
  refine (proj1 (proj2 (event_label_stays_on_timeline 1190 1200)) _).
  discriminate.
Defined.

(** An empty [monitor.id] tag ahead of a non-empty one: nothing is rendered,
    and the query is enabled for the empty id. *)
Lemma section_requires_monitor_id_witness :
  monitorStatsOptions
    [{| key := "monitor.id"; value := EmptyString |};
     {| key := "monitor.id"; value := "abc" |}]
  = {| monitors := [EmptyString]; enabled := true |} /\
  render nat
    [{| key := "monitor.id"; value := EmptyString |};
     {| key := "monitor.id"; value := "abc" |}] None false 0
  = RenderNull nat.
Proof.
  destruct (proj1 (proj2 (section_requires_monitor_id nat
              [{| key := "monitor.id"; value := EmptyString |};
               {| key := "monitor.id"; value := "abc" |}] None false 0))
              [] {| key := "monitor.id"; value := EmptyString |}
              [{| key := "monitor.id"; value := "abc" |}]
              eq_refl (fun t (H : In t []) => match H with end) eq_refl)
    as [Hopt Hnull].
  split; [exact Hopt | exact (Hnull eq_refl)].
Defined.

End CronTimelineSectionExtras.

(** ** The event tick in double precision *)

Module CronTimelineSectionDoublesFacts.

Import PrimFloat.
Import CronTimelineSectionDoubles.

Local Open Scope float_scope.

(** At the very end of the window the quotient can round above the width
    (a day's window on a 315 px timeline), which is why the statement on
    the tick above speaks of events strictly within the window. *)
Lemma tick_at_window_end_rounds_above_width :
  (315 <? eventTickLeft 86400000 0 1440 315) = true.
Proof. reflexivity. Qed.

End CronTimelineSectionDoublesFacts.
